(** * Validation-error aggregation of go-git-providers (gitprovider/validation.go)

    A shallow embedding of [MultiError] and [validationErrorList], together
    with the parts of Go's [errors] and [fmt] packages that the file calls
    ([errors.Is], [errors.As], [errors.Unwrap], [fmt.Errorf] with one [%w]). *)

From Stdlib Require Import String Ascii List Bool Arith Lia.
Import ListNotations.
Open Scope string_scope.

(** ** Go error values *)

(** Every non-nil error of this development is a pointer; a pointer is an
    address, and the pointed-to struct (never mutated once built) is carried
    along with it. *)
Definition ptr := nat.

(** The universe of values of interface type [error]:
    - [nil_error]: the nil interface value;
    - [errorString]: [*errors.errorString], what [errors.New] returns;
    - [wrapError]: [*fmt.wrapError], what [fmt.Errorf] returns for one [%w];
    - [MultiError]: [*MultiError] of validation.go, with its [Errors] field;
    - [customError]: a pointer to any other struct type [ty] implementing
      [error] with no [Is], [As] or [Unwrap] method, like the [customError]
      of the doc comment of [MultiError]. *)
#[warning="-register-all"]
Inductive error : Type :=
| nil_error
| errorString (p : ptr) (s : string)
| wrapError (p : ptr) (msg : string) (err : error)
| MultiError (p : ptr) (Errors : list error)
| customError (ty : string) (p : ptr) (msg : string).

(** Dynamic types of non-nil errors. *)
Inductive rtype : Type :=
| ty_errorString
| ty_wrapError
| ty_MultiError
| ty_custom (ty : string).

Definition rtype_eqb (a b : rtype) : bool :=
  match a, b with
  | ty_errorString, ty_errorString => true
  | ty_wrapError, ty_wrapError => true
  | ty_MultiError, ty_MultiError => true
  | ty_custom s, ty_custom t => String.eqb s t
  | _, _ => false
  end.

(** [reflect.TypeOf(err)]; [None] for the nil interface. *)
Definition TypeOf (err : error) : option rtype :=
  match err with
  | nil_error => None
  | errorString _ _ => Some ty_errorString
  | wrapError _ _ _ => Some ty_wrapError
  | MultiError _ _ => Some ty_MultiError
  | customError ty _ _ => Some (ty_custom ty)
  end.

(** [err == nil] and [err != nil]. *)
Definition is_nil (err : error) : bool :=
  match err with nil_error => true | _ => false end.

Definition non_nil (err : error) : bool := negb (is_nil err).

(** [_, ok := target.( *MultiError)]. *)
Definition is_MultiError (target : error) : bool :=
  match target with MultiError _ _ => true | _ => false end.

(** Go's [==] on two interface values holding pointers: same dynamic type and
    same address. *)
Definition error_eqb (a b : error) : bool :=
  match a, b with
  | nil_error, nil_error => true
  | errorString p _, errorString q _ => Nat.eqb p q
  | wrapError p _ _, wrapError q _ _ => Nat.eqb p q
  | MultiError p _, MultiError q _ => Nat.eqb p q
  | customError s p _, customError t q _ => String.eqb s t && (Nat.eqb p q)
  | _, _ => false
  end.

(** [errors.Unwrap]: only [*fmt.wrapError] has an [Unwrap] method. *)
Definition errors_Unwrap (err : error) : error :=
  match err with
  | wrapError _ _ inner => inner
  | _ => nil_error
  end.

(** ** [MultiError.Error] *)

Definition LF : string := String (ascii_of_nat 10) EmptyString.

Definition header : string := "multiple errors occurred: ".

(** [fmt.Sprintf("\n- %s", s)]. *)
Definition bullet (s : string) : string := LF ++ "- " ++ s.

(** The loop of [MultiError.Error], over the [Error] method of the held
    errors.  [None] is a panic: calling [Error] on a nil interface value. *)
Fixpoint Error_loop (Error : error -> option string) (Errors : list error)
    (errStr : string) : option string :=
  match Errors with
  | [] => Some errStr
  | err :: rest =>
      match Error err with
      | Some s => Error_loop Error rest (errStr ++ bullet s)
      | None => None
      end
  end.

Definition MultiError_Error_with (Error : error -> option string)
    (Errors : list error) : option string :=
  match Error_loop Error Errors "" with
  | Some errStr => Some (header ++ errStr)
  | None => None
  end.

(** The [Error() string] method of each error type. *)
Fixpoint err_Error (err : error) : option string :=
  match err with
  | nil_error => None
  | errorString _ s => Some s
  | wrapError _ msg _ => Some msg
  | MultiError _ Errors => MultiError_Error_with err_Error Errors
  | customError _ _ msg => Some msg
  end.

(** [func (e *MultiError) Error() string], on the [Errors] field of [e]. *)
Definition MultiError_Error (Errors : list error) : option string :=
  MultiError_Error_with err_Error Errors.

(** ** [MultiError.Is] and [errors.Is] *)

(** The body of [MultiError.Is]; [Is] stands for [errors.Is], which calls
    back into this method. *)
Fixpoint Is_loop (Is : error -> error -> bool) (Errors : list error)
    (target : error) : bool :=
  match Errors with
  | [] => false
  | err :: rest => if Is err target then true else Is_loop Is rest target
  end.

Definition MultiError_Is_with (Is : error -> error -> bool)
    (Errors : list error) (target : error) : bool :=
  if is_MultiError target then true else Is_loop Is Errors target.

(** [errors.Is].  All types of the universe are comparable, so the
    [isComparable] test of the library is true throughout. *)
Fixpoint errors_Is (err target : error) {struct err} : bool :=
  if is_nil target then error_eqb err target
  else if error_eqb err target then true
  else if match err with
          | MultiError _ Errors => MultiError_Is_with errors_Is Errors target
          | _ => false
          end then true
  else match err with
       | wrapError _ _ inner =>
           if is_nil inner then false else errors_Is inner target
       | _ => false
       end.

(** [func (e *MultiError) Is(target error) bool]. *)
Definition MultiError_Is (Errors : list error) (target : error) : bool :=
  MultiError_Is_with errors_Is Errors target.

(** ** [MultiError.As] and [errors.As] *)

(** The element type of an [errors.As] target: the interface [error], or
    one of the pointer types. *)
Inductive target_type : Type :=
| target_iface_error
| target_ptr (t : rtype).

(** [reflect.TypeOf(err).AssignableTo(targetType)]. *)
Definition AssignableTo (err : error) (T : target_type) : bool :=
  match TypeOf err, T with
  | None, _ => false
  | Some _, target_iface_error => true
  | Some t, target_ptr u => rtype_eqb t u
  end.

(** The target of [errors.As] is a non-nil pointer to a slot of type [T];
    [slot] is what the slot holds.  The functions return the boolean and the
    slot afterwards. *)
Fixpoint As_loop (As : error -> target_type -> error -> bool * error)
    (Errors : list error) (T : target_type) (slot : error) : bool * error :=
  match Errors with
  | [] => (false, slot)
  | err :: rest =>
      let (ok, slot') := As err T slot in
      if ok then (true, slot') else As_loop As rest T slot'
  end.

Fixpoint errors_As (err : error) (T : target_type) (slot : error)
    {struct err} : bool * error :=
  if is_nil err then (false, slot)
  else if AssignableTo err T then (true, err)
  else match err with
       | MultiError _ Errors =>
           let (ok, slot') := As_loop errors_As Errors T slot in
           if ok then (true, slot') else (false, slot')
       | wrapError _ _ inner => errors_As inner T slot
       | _ => (false, slot)
       end.

(** [func (e *MultiError) As(target interface{}) bool]. *)
Definition MultiError_As (Errors : list error) (T : target_type)
    (slot : error) : bool * error :=
  As_loop errors_As Errors T slot.

(** ** Allocation *)

(** [fmt.Errorf] and [&MultiError{...}] allocate.  The heap is represented by
    its next unused address; a computation that may allocate takes the heap
    and returns its result with the heap afterwards. *)
Definition heap := ptr.

Definition Go (A : Type) : Type := heap -> A * heap.

Definition ret {A : Type} (a : A) : Go A := fun h => (a, h).

Definition bind {A B : Type} (m : Go A) (k : A -> Go B) : Go B :=
  fun h => let (a, h') := m h in k a h'.

Notation "x <- m ;; k" := (bind m (fun x => k))
  (at level 61, m at next level, right associativity).

(** [&fmt.wrapError{msg, err}] and [&MultiError{Errors: errs}]. *)
Definition new_wrapError (msg : string) (err : error) : Go error :=
  fun h => (wrapError h msg err, S h).

Definition new_MultiError (Errors : list error) : Go error :=
  fun h => (MultiError h Errors, S h).

(** What [fmt] prints for an error operand under [%v] (and so under [%w]):
    the result of its [Error] method; when that method panics on a non-nil
    pointer, [fmt] recovers and prints the panic instead. *)
Definition panic_text : string :=
  "%!v(PANIC=Error method: runtime error: invalid memory address or nil pointer dereference)".

Definition fmt_error (err : error) : string :=
  match err_Error err with
  | Some s => s
  | None => panic_text
  end.

(** [fmt.Errorf("validation error for %s%s: %w", fieldPath, valStr, err)],
    for a non-nil [err]. *)
Definition validation_msg (fieldPath valStr : string) (err : error) : string :=
  "validation error for " ++ fieldPath ++ valStr ++ ": " ++ fmt_error err.

Definition fmt_Errorf (fieldPath valStr : string) (err : error) : Go error :=
  new_wrapError (validation_msg fieldPath valStr err) err.

(** [strings.Join(elems, sep)]. *)
Definition strings_Join (elems : list string) (sep : string) : string :=
  String.concat sep elems.

(** ** The error-list builder *)

Record validationErrorList : Type := mkList {
  name : string;
  errs : list error
}.

(** [newValidationErrorList]. *)
Definition newValidationErrorList (n : string) : validationErrorList :=
  {| name := n; errs := [] |}.

(** [validationErrorList.Error]: the loop that filters the nil entries is
    [filter], and [filteredErrs[0]] is the head. *)
Definition Error (el : validationErrorList) : Go error :=
  if Nat.eqb (length (errs el)) 0 then ret nil_error
  else
    let filteredErrs := filter non_nil (errs el) in
    if Nat.eqb (length filteredErrs) 0 then ret nil_error
    else if Nat.eqb (length filteredErrs) 1 then ret (hd nil_error filteredErrs)
    else new_MultiError filteredErrs.

Section Builder.

(** The non-nil values of type [interface{}] passed as the offending value,
    and their rendering under [%v]. *)
Variable value : Type.
Variable Sprint : value -> string.

(** The sentinel causes are declared in errors.go as package-level
    [errors.New] values; their addresses are fixed and distinct, their
    texts are taken as given. *)
Variables msgRequired msgInvalid msgEnumInvalid : string.

Definition ErrFieldRequired : error := errorString 0 msgRequired.
Definition ErrFieldInvalid : error := errorString 1 msgInvalid.
Definition ErrFieldEnumInvalid : error := errorString 2 msgEnumInvalid.

(** The heap of a program starts after the package-level values. *)
Definition heap0 : heap := 3.

(** An [interface{}] argument: [None] is nil. *)
Definition any : Type := option value.

(** [valStr] of [Append]. *)
Definition valStr (v : any) : string :=
  match v with
  | None => ""
  | Some x => " (value: " ++ Sprint x ++ ")"
  end.

(** [validationErrorList.Append]. *)
Definition Append (el : validationErrorList) (err : error) (v : any)
    (fieldPaths : list string) : Go validationErrorList :=
  if is_nil err then ret el
  else
    let fieldPath := strings_Join (name el :: fieldPaths) "." in
    e <- fmt_Errorf fieldPath (valStr v) err ;;
    ret {| name := name el; errs := errs el ++ [e] |}.

(** [validationErrorList.Required] and [validationErrorList.Invalid]. *)
Definition Required (el : validationErrorList) (fieldPaths : list string)
    : Go validationErrorList :=
  Append el ErrFieldRequired None fieldPaths.

Definition Invalid (el : validationErrorList) (v : any)
    (fieldPaths : list string) : Go validationErrorList :=
  Append el ErrFieldInvalid v fieldPaths.

(** A call of one of the three recorders, and a sequence of such calls on
    one builder. *)
Inductive call : Type :=
| call_Required (fieldPaths : list string)
| call_Invalid (v : any) (fieldPaths : list string)
| call_Append (err : error) (v : any) (fieldPaths : list string).

Definition do_call (el : validationErrorList) (c : call)
    : Go validationErrorList :=
  match c with
  | call_Required fieldPaths => Required el fieldPaths
  | call_Invalid v fieldPaths => Invalid el v fieldPaths
  | call_Append err v fieldPaths => Append el err v fieldPaths
  end.

Fixpoint do_calls (el : validationErrorList) (cs : list call)
    : Go validationErrorList :=
  match cs with
  | [] => ret el
  | c :: rest => el' <- do_call el c ;; do_calls el' rest
  end.

(** Whether a call records a failure, and the cause, value suffix and
    path segments it records. *)
Definition call_cause (c : call) : error :=
  match c with
  | call_Required _ => ErrFieldRequired
  | call_Invalid _ _ => ErrFieldInvalid
  | call_Append err _ _ => err
  end.

Definition call_value (c : call) : any :=
  match c with
  | call_Required _ => None
  | call_Invalid v _ => v
  | call_Append _ v _ => v
  end.

Definition call_paths (c : call) : list string :=
  match c with
  | call_Required p => p
  | call_Invalid _ p => p
  | call_Append _ _ p => p
  end.

Definition records (c : call) : bool := non_nil (call_cause c).

(** The diagnostic line a recording call produces on a builder scoped
    with [n]. *)
Definition call_msg (n : string) (c : call) : string :=
  validation_msg (strings_Join (n :: call_paths c) ".")
                 (valStr (call_value c)) (call_cause c).

(** ** Validation of a deploy key *)

(** Modelled from the spec: the deploy-key record and its Create
    validation live in types_repository.go, which is not among the
    sources (only its test is).  The record has a name, key material and
    an optional owning-repository reference; validation instantiates a
    builder scoped to the name [DeployKey], runs the required checks on
    the record's fields without stopping at the first failure, folds the
    check of the embedded reference, when present, into the same builder,
    and resolves the builder.  The check of the embedded reference is
    taken as given ([foldRepository]). *)
Variable RepositoryRef : Type.
Variable foldRepository :
  validationErrorList -> RepositoryRef -> Go validationErrorList.

Record DeployKey : Type := mkDeployKey {
  Name : string;
  Key : list Byte.byte;
  Repository : option RepositoryRef
}.

Definition DeployKey_ValidateCreate (dk : DeployKey) : Go error :=
  let el := newValidationErrorList "DeployKey" in
  el <- (if Nat.eqb (String.length (Name dk)) 0
         then Required el ["Name"] else ret el) ;;
  el <- (if Nat.eqb (List.length (Key dk)) 0
         then Required el ["Key"] else ret el) ;;
  el <- match Repository dk with
        | Some r => foldRepository el r
        | None => ret el
        end ;;
  Error el.

End Builder.

Arguments any : clear implicits.
Arguments valStr {value} Sprint v.
Arguments Append {value} Sprint el err v fieldPaths _.
Arguments Required {value} Sprint msgRequired el fieldPaths _.
Arguments Invalid {value} Sprint msgInvalid el v fieldPaths _.
Arguments call_Required {value} fieldPaths.
Arguments call_Invalid {value} v fieldPaths.
Arguments call_Append {value} err v fieldPaths.
Arguments do_call {value} Sprint msgRequired msgInvalid el c _.
Arguments do_calls {value} Sprint msgRequired msgInvalid el cs _.
Arguments call_cause {value} msgRequired msgInvalid c.
Arguments call_value {value} c.
Arguments call_paths {value} c.
Arguments records {value} msgRequired msgInvalid c.
Arguments call_msg {value} Sprint msgRequired msgInvalid n c.
Arguments mkDeployKey {RepositoryRef} Name Key Repository.
Arguments Name {RepositoryRef} d.
Arguments Key {RepositoryRef} d.
Arguments Repository {RepositoryRef} d.
Arguments DeployKey_ValidateCreate {value} Sprint msgRequired
  {RepositoryRef} foldRepository dk _.

(** ** Functions used to state the properties *)

(** The errors reachable from [err] through [Unwrap] and through the
    [Errors] of a [MultiError], in the order [errors.As] meets them. *)
Fixpoint reachable (err : error) : list error :=
  match err with
  | nil_error => []
  | wrapError _ _ inner => err :: reachable inner
  | MultiError _ Errors => err :: flat_map reachable Errors
  | _ => [err]
  end.

(** The outcome of a type-directed extraction over a list of candidates:
    the first one assignable to [T] is written to the slot. *)
Definition first_assignable (T : target_type) (l : list error) (slot : error)
    : bool * error :=
  match find (fun e => AssignableTo e T) l with
  | Some v => (true, v)
  | None => (false, slot)
  end.

(** The renderings of a list of errors, in order; [None] when one of the
    [Error] calls panics. *)
Fixpoint renderings (Errors : list error) : option (list string) :=
  match Errors with
  | [] => Some []
  | err :: rest =>
      match err_Error err, renderings rest with
      | Some s, Some ss => Some (s :: ss)
      | _, _ => None
      end
  end.

(** The bullet lines of the given renderings, one after the other. *)
Fixpoint bullets (ss : list string) : string :=
  match ss with
  | [] => ""
  | s :: rest => bullet s ++ bullets rest
  end.

Section Recorded.

Variable value : Type.
Variable Sprint : value -> string.
Variables msgRequired msgInvalid : string.

(** The wrapped errors a sequence of calls leaves in a builder scoped with
    [n], the first of them allocated at [h]. *)
Fixpoint recorded (n : string) (h : heap) (cs : list (call value))
    : list error :=
  match cs with
  | [] => []
  | c :: rest =>
      if records msgRequired msgInvalid c
      then wrapError h (call_msg Sprint msgRequired msgInvalid n c)
                     (call_cause msgRequired msgInvalid c)
           :: recorded n (S h) rest
      else recorded n h rest
  end.

End Recorded.

Arguments recorded {value} Sprint msgRequired msgInvalid n h cs.

(** Whether the [Error] method of [err] returns: it panics on the nil
    interface value and on a [MultiError] holding an error on which it
    panics. *)
Fixpoint renders (err : error) : bool :=
  match err with
  | nil_error => false
  | MultiError _ Errors => forallb renders Errors
  | _ => true
  end.


Section Validate.

Variable value : Type.
Variable Sprint : value -> string.
Variables msgRequired msgInvalid : string.

(** A validation pass as the callers of the builder write it: a new
    builder, the recorder calls, the resolve step. *)
Definition validate (n : string) (cs : list (call value)) : Go error :=
  el <- do_calls Sprint msgRequired msgInvalid (newValidationErrorList n) cs ;;
  Error el.

End Validate.

Arguments validate {value} Sprint msgRequired msgInvalid n cs _.

(** A call of [Required] or [Invalid]. *)
Definition is_helper_call {value : Type} (c : call value) : bool :=
  match c with
  | call_Append _ _ _ => false
  | _ => true
  end.

(** ** gitlab.NewClient *)

(** A Go result pair [(x, err)] of which the caller reads [x] only when
    [err] is nil. *)
Inductive result (A : Type) : Type :=
| Ok (a : A)
| Err (e : error).

Arguments Ok {A} a.
Arguments Err {A} e.

Definition TokenType : Type := string.

Definition DefaultDomain : string := "gitlab.com".
Definition TokenTypeOAuth2 : TokenType := "oauth2".
Definition TokenTypePat : TokenType := "pat".
Definition TokenTypeBasic : TokenType := "basicauth".

(** [opts.Domain == nil || *opts.Domain == DefaultDomain], and
    [*opts.Domain] where the pointer is not nil. *)
Definition is_default_domain (d : option string) : bool :=
  match d with
  | None => true
  | Some s => String.eqb s DefaultDomain
  end.

Definition deref_domain (d : option string) : string :=
  match d with
  | Some s => s
  | None => ""
  end.

Section NewClient.

(** The packages [gitprovider] and [go-gitlab] are taken as given: the
    option and client types, [MakeClientOptions], the fields and the method
    of the options that [NewClient] reads, [BuildClientFromTransportChain],
    the three constructors of go-gitlab and the unexported [newClient]. *)
Variables ClientOption ClientOptions TransportChain : Type.
Variables HTTPClient GitlabClient Client : Type.
Variable MakeClientOptions : list ClientOption -> result ClientOptions.
Variable Domain : ClientOptions -> option string.
Variable EnableDestructiveAPICalls : ClientOptions -> option bool.
Variable GetTransportChain : ClientOptions -> TransportChain.
Variable BuildClientFromTransportChain : TransportChain -> result HTTPClient.

(** The go-gitlab options [NewClient] builds. *)
Inductive ClientOptionFunc : Type :=
| WithHTTPClient (c : HTTPClient)
| WithBaseURL (baseURL : string).

Variable gogitlab_NewOAuthClient :
  string -> list ClientOptionFunc -> result GitlabClient.
Variable gogitlab_NewClient :
  string -> list ClientOptionFunc -> result GitlabClient.
Variable gogitlab_NewBasicAuthClient :
  string -> string -> list ClientOptionFunc -> result GitlabClient.

(** [gl] is a pointer that stays nil when no constructor runs. *)
Variable newClient : option GitlabClient -> string -> string -> bool -> Client.

(** The end of [NewClient], after the branches on the token type. *)
Definition finish (opts : ClientOptions) (gl : option GitlabClient)
    (domain sshDomain : string) : result Client :=
  let destructiveActions :=
    match EnableDestructiveAPICalls opts with
    | Some b => b
    | None => false
    end in
  Ok (newClient gl domain sshDomain destructiveActions).

(** [NewClient]; [sshDomain] is declared and never assigned. *)
Definition NewClient (username password token : string)
    (tokenType : TokenType) (optFns : list ClientOption) : result Client :=
  let sshDomain := "" in
  match MakeClientOptions optFns with
  | Err e => Err e
  | Ok opts =>
  match BuildClientFromTransportChain (GetTransportChain opts) with
  | Err e => Err e
  | Ok httpClient =>
    if String.eqb tokenType TokenTypeOAuth2 then
      if is_default_domain (Domain opts) then
        match gogitlab_NewOAuthClient token [WithHTTPClient httpClient] with
        | Err e => Err e
        | Ok gl => finish opts (Some gl) DefaultDomain sshDomain
        end
      else
        let domain := deref_domain (Domain opts) in
        let baseURL := "https://" ++ domain in
        match gogitlab_NewOAuthClient token
                [WithHTTPClient httpClient; WithBaseURL baseURL] with
        | Err e => Err e
        | Ok gl => finish opts (Some gl) domain sshDomain
        end
    else if String.eqb tokenType TokenTypePat then
      if is_default_domain (Domain opts) then
        match gogitlab_NewClient token [WithHTTPClient httpClient] with
        | Err e => Err e
        | Ok gl => finish opts (Some gl) DefaultDomain sshDomain
        end
      else
        let domain := deref_domain (Domain opts) in
        let baseURL := "https://" ++ domain in
        match gogitlab_NewClient token
                [WithHTTPClient httpClient; WithBaseURL baseURL] with
        | Err e => Err e
        | Ok gl => finish opts (Some gl) domain sshDomain
        end
    else if String.eqb tokenType TokenTypeBasic then
      if is_default_domain (Domain opts) then
        match gogitlab_NewBasicAuthClient username password
                [WithHTTPClient httpClient] with
        | Err e => Err e
        | Ok gl => finish opts (Some gl) DefaultDomain sshDomain
        end
      else
        let domain := deref_domain (Domain opts) in
        let baseURL := "https://" ++ domain in
        match gogitlab_NewBasicAuthClient username password
                [WithHTTPClient httpClient; WithBaseURL baseURL] with
        | Err e => Err e
        | Ok gl => finish opts (Some gl) domain sshDomain
        end
    else finish opts None "" sshDomain
  end
  end.

(** Used to state the properties: the constructor a token type selects,
    the options it is given, and the domain the client is given. *)
Definition known_token_type (tokenType : TokenType) : bool :=
  String.eqb tokenType TokenTypeOAuth2
  || String.eqb tokenType TokenTypePat
  || String.eqb tokenType TokenTypeBasic.

Definition backend (username password token : string) (tokenType : TokenType)
    (os : list ClientOptionFunc) : result GitlabClient :=
  if String.eqb tokenType TokenTypeOAuth2 then gogitlab_NewOAuthClient token os
  else if String.eqb tokenType TokenTypePat then gogitlab_NewClient token os
  else gogitlab_NewBasicAuthClient username password os.

Definition backend_options (httpClient : HTTPClient) (d : option string)
    : list ClientOptionFunc :=
  match d with
  | None => [WithHTTPClient httpClient]
  | Some s =>
      if String.eqb s DefaultDomain then [WithHTTPClient httpClient]
      else [WithHTTPClient httpClient; WithBaseURL ("https://" ++ s)]
  end.

Definition effective_domain (d : option string) : string :=
  match d with
  | None => DefaultDomain
  | Some s => s
  end.

End NewClient.

Arguments WithHTTPClient {HTTPClient} c.
Arguments WithBaseURL {HTTPClient} baseURL.
Arguments finish {ClientOptions GitlabClient Client}.
Arguments NewClient {ClientOption ClientOptions TransportChain HTTPClient
  GitlabClient Client}.
Arguments backend {HTTPClient GitlabClient}.
Arguments backend_options {HTTPClient}.

(** ** An induction principle for errors *)

Section error_induction.

Variable P : error -> Prop.
Hypothesis Hnil : P nil_error.
Hypothesis HerrorString : forall p s, P (errorString p s).
Hypothesis HwrapError : forall p msg err, P err -> P (wrapError p msg err).
Hypothesis HMultiError : forall p Errors, Forall P Errors -> P (MultiError p Errors).
Hypothesis HcustomError : forall ty p msg, P (customError ty p msg).

Fixpoint error_nested_ind (err : error) : P err :=
  match err with
  | nil_error => Hnil
  | errorString p s => HerrorString p s
  | wrapError p msg inner => HwrapError p msg inner (error_nested_ind inner)
  | MultiError p Errors =>
      HMultiError p Errors
        ((fix all (l : list error) : Forall P l :=
            match l with
            | [] => Forall_nil P
            | e :: r => Forall_cons e (error_nested_ind e) (all r)
            end) Errors)
  | customError ty p msg => HcustomError ty p msg
  end.

End error_induction.

(** ** The resolve step *)

Lemma error_eqb_refl (e : error) : error_eqb e e = true.
Proof.
  destruct e; simpl; rewrite ?Nat.eqb_refl, ?String.eqb_refl; reflexivity.
Qed.

(** [errors.Is] finds a non-nil cause in the [wrapError] around it. *)
Lemma errors_Is_wrapped_cause (p : ptr) (msg : string) (cause : error) :
  is_nil cause = false ->
  errors_Is (wrapError p msg cause) cause = true.
Proof.
  intros Hc. cbn [errors_Is]. rewrite Hc.
  destruct (error_eqb (wrapError p msg cause) cause); [reflexivity|].
  destruct cause; try discriminate; cbn [errors_Is is_nil];
    rewrite error_eqb_refl; reflexivity.
Qed.

Lemma Error_cases (el : validationErrorList) (h : heap) :
  Error el h =
    match filter non_nil (errs el) with
    | [] => (nil_error, h)
    | [e] => (e, h)
    | (_ :: _ :: _) as es => (MultiError h es, S h)
    end.
Proof.
  unfold Error. destruct el as [n l]; simpl.
  destruct l as [|a l]; [reflexivity|].
  cbn [length Nat.eqb].
  destruct (filter non_nil (a :: l)) as [|e [|e' es]]; reflexivity.
Qed.

Lemma filter_non_nil_head (l rest : list error) (e : error) :
  filter non_nil l = e :: rest -> is_nil e = false.
Proof.
  intros Hf.
  assert (Hin : In e (filter non_nil l)) by (rewrite Hf; left; reflexivity).
  apply filter_In in Hin. destruct Hin as [_ Hnn].
  unfold non_nil in Hnn. destruct (is_nil e); [discriminate|reflexivity].
Qed.

(** C1: the resolve step returns nil when no non-nil error is in the list,
    the sole non-nil error when there is exactly one, and otherwise a
    [MultiError] allocated at the next unused address that holds the non-nil
    errors in the order of the list; so it returns nil only in the first
    case. *)
Theorem Error_resolves (el : validationErrorList) (h : heap) :
  Error el h =
    match filter non_nil (errs el) with
    | [] => (nil_error, h)
    | [e] => (e, h)
    | (_ :: _ :: _) as es => (MultiError h es, S h)
    end /\
  (fst (Error el h) = nil_error <-> filter non_nil (errs el) = []).
Proof.
  split; [apply Error_cases|].
  rewrite Error_cases.
  destruct (filter non_nil (errs el)) as [|e [|e' es]] eqn:Hf; cbn [fst].
  - tauto.
  - apply filter_non_nil_head in Hf.
    split; intros H; [subst e|]; discriminate.
  - split; discriminate.
Qed.

(** ** The aggregate error *)

Lemma string_app_assoc (a b c : string) : (a ++ b) ++ c = a ++ (b ++ c).
Proof. induction a as [|x a IH]; simpl; [reflexivity|]. rewrite IH. reflexivity. Qed.

Lemma string_app_nil_r (a : string) : a ++ "" = a.
Proof. induction a as [|x a IH]; simpl; [reflexivity|]. rewrite IH. reflexivity. Qed.

Lemma Error_loop_renderings (Errors : list error) :
  forall errStr,
    Error_loop err_Error Errors errStr =
      match renderings Errors with
      | Some ss => Some (errStr ++ bullets ss)
      | None => None
      end.
Proof.
  induction Errors as [|err rest IH]; intros errStr; simpl.
  - rewrite string_app_nil_r. reflexivity.
  - destruct (err_Error err) as [s|]; [|reflexivity].
    rewrite IH. destruct (renderings rest) as [ss|]; [|reflexivity].
    simpl. rewrite string_app_assoc. reflexivity.
Qed.

Lemma MultiError_Error_renderings (Errors : list error) :
  MultiError_Error Errors =
    match renderings Errors with
    | Some ss => Some (header ++ bullets ss)
    | None => None
    end.
Proof.
  unfold MultiError_Error, MultiError_Error_with.
  rewrite Error_loop_renderings.
  destruct (renderings Errors); reflexivity.
Qed.

Lemma Is_loop_existsb (Is : error -> error -> bool) (Errors : list error)
    (target : error) :
  Is_loop Is Errors target = existsb (fun err => Is err target) Errors.
Proof.
  induction Errors as [|err rest IH]; simpl; [reflexivity|].
  rewrite IH. destruct (Is err target); reflexivity.
Qed.

(** How [errors.Is] goes through a [MultiError]: the pointer comparison,
    then the [Is] method; a [MultiError] has nothing to unwrap. *)
Lemma errors_Is_MultiError (p : ptr) (Errors : list error) (target : error) :
  errors_Is (MultiError p Errors) target =
    if is_nil target then false
    else error_eqb (MultiError p Errors) target || MultiError_Is Errors target.
Proof.
  unfold MultiError_Is. cbn [errors_Is].
  destruct (is_nil target) eqn:Ht.
  - destruct target; try discriminate; reflexivity.
  - destruct (error_eqb (MultiError p Errors) target); [reflexivity|].
    destruct (MultiError_Is_with errors_Is Errors target); reflexivity.
Qed.

(** C3: [MultiError.Is] answers true for every target that is a
    [MultiError], whatever either of the two holds; for any other target it
    answers true exactly when [errors.Is] succeeds on at least one of the
    held errors. *)
Theorem MultiError_Is_spec (Errors : list error) (target : error) :
  (forall q held, MultiError_Is Errors (MultiError q held) = true) /\
  MultiError_Is Errors target =
    (is_MultiError target
     || existsb (fun err => errors_Is err target) Errors) /\
  (MultiError_Is Errors target = true <->
   is_MultiError target = true \/
   exists err, In err Errors /\ errors_Is err target = true).
Proof.
  assert (Heq : MultiError_Is Errors target =
                (is_MultiError target
                 || existsb (fun err => errors_Is err target) Errors)).
  { unfold MultiError_Is, MultiError_Is_with. rewrite Is_loop_existsb.
    destruct (is_MultiError target); reflexivity. }
  split; [reflexivity|]. split; [exact Heq|].
  rewrite Heq, orb_true_iff, existsb_exists. reflexivity.
Qed.

Lemma find_app {A : Type} (f : A -> bool) (l1 l2 : list A) :
  find f (l1 ++ l2) =
    match find f l1 with
    | Some x => Some x
    | None => find f l2
    end.
Proof.
  induction l1 as [|a l1 IH]; simpl; [reflexivity|].
  destruct (f a); [reflexivity|exact IH].
Qed.

Lemma As_loop_reachable (T : target_type) (Errors : list error) :
  Forall (fun err => forall slot,
            errors_As err T slot = first_assignable T (reachable err) slot)
         Errors ->
  forall slot,
    As_loop errors_As Errors T slot =
      first_assignable T (flat_map reachable Errors) slot.
Proof.
  induction 1 as [|err rest Herr _ IH]; intros slot; [reflexivity|].
  cbn [As_loop flat_map]. rewrite Herr. unfold first_assignable.
  rewrite find_app.
  destruct (find (fun e => AssignableTo e T) (reachable err)) as [v|].
  - reflexivity.
  - rewrite IH. reflexivity.
Qed.

Lemma errors_As_reachable (T : target_type) (err : error) :
  forall slot, errors_As err T slot = first_assignable T (reachable err) slot.
Proof.
  induction err as [|p s|p msg inner IH|p Errors IH|ty p msg]
    using error_nested_ind; intros slot.
  - reflexivity.
  - unfold first_assignable. cbn [errors_As is_nil reachable find].
    destruct (AssignableTo (errorString p s) T); reflexivity.
  - unfold first_assignable. cbn [errors_As is_nil reachable find].
    destruct (AssignableTo (wrapError p msg inner) T); [reflexivity|].
    apply IH.
  - unfold first_assignable. cbn [errors_As is_nil reachable find].
    destruct (AssignableTo (MultiError p Errors) T); [reflexivity|].
    rewrite (As_loop_reachable T Errors IH). unfold first_assignable.
    destruct (find (fun e => AssignableTo e T) (flat_map reachable Errors));
      reflexivity.
  - unfold first_assignable. cbn [errors_As is_nil reachable find].
    destruct (AssignableTo (customError ty p msg) T); reflexivity.
Qed.

Lemma MultiError_As_reachable (Errors : list error) (T : target_type)
    (slot : error) :
  MultiError_As Errors T slot =
    first_assignable T (flat_map reachable Errors) slot.
Proof.
  apply As_loop_reachable. apply Forall_forall. intros err _.
  apply errors_As_reachable.
Qed.

Lemma As_loop_first (T : target_type) (Errors : list error) (slot : error) :
  As_loop errors_As Errors T slot =
    match find (fun err => fst (errors_As err T slot)) Errors with
    | Some err => (true, snd (errors_As err T slot))
    | None => (false, slot)
    end.
Proof.
  induction Errors as [|err rest IH]; [reflexivity|].
  cbn [As_loop find].
  pose proof (errors_As_reachable T err slot) as Herr.
  unfold first_assignable in Herr.
  destruct (find (fun e => AssignableTo e T) (reachable err));
    rewrite Herr; cbn [fst snd].
  - rewrite Herr. reflexivity.
  - exact IH.
Qed.

(** C4: [MultiError.As] tries [errors.As] on the held errors in order and
    stops at the first that succeeds, with the slot as that call leaves it;
    the value in the slot is then the first error assignable to the target
    type among those reachable from the held errors (through [Unwrap] and
    through nested aggregates); it returns false, with the slot as it was,
    exactly when no reachable error is assignable. *)
Theorem MultiError_As_spec (Errors : list error) (T : target_type)
    (slot : error) :
  MultiError_As Errors T slot =
    match find (fun err => fst (errors_As err T slot)) Errors with
    | Some err => (true, snd (errors_As err T slot))
    | None => (false, slot)
    end /\
  MultiError_As Errors T slot =
    match find (fun e => AssignableTo e T) (flat_map reachable Errors) with
    | Some v => (true, v)
    | None => (false, slot)
    end /\
  (MultiError_As Errors T slot = (false, slot) <->
   forall e, In e (flat_map reachable Errors) -> AssignableTo e T = false).
Proof.
  split; [apply As_loop_first|].
  split; [apply MultiError_As_reachable|].
  rewrite MultiError_As_reachable. unfold first_assignable.
  destruct (find (fun e => AssignableTo e T) (flat_map reachable Errors))
    as [v|] eqn:Hf.
  - split; [discriminate|]. intros Hall.
    apply find_some in Hf. destruct Hf as [Hin Hv].
    rewrite (Hall v Hin) in Hv. discriminate.
  - split; [|reflexivity]. intros _. apply find_none. exact Hf.
Qed.

(** ** The recorders *)

Ltac unfold_Append := unfold Append.
Ltac unfold_helpers := unfold Required, Invalid.
Ltac unfold_records := unfold records.
Ltac step_do_calls := cbn [do_calls].

Section Recorders.

Variable value : Type.
Variable Sprint : value -> string.
Variables msgRequired msgInvalid : string.

Local Abbreviation Append := (Append Sprint).
Local Abbreviation Required := (Required Sprint msgRequired).
Local Abbreviation Invalid := (Invalid Sprint msgInvalid).
Local Abbreviation do_call := (do_call Sprint msgRequired msgInvalid).
Local Abbreviation do_calls := (do_calls Sprint msgRequired msgInvalid).
Local Abbreviation records := (records msgRequired msgInvalid).
Local Abbreviation call_msg := (call_msg Sprint msgRequired msgInvalid).
Local Abbreviation call_cause := (call_cause msgRequired msgInvalid).
Local Abbreviation recorded := (recorded Sprint msgRequired msgInvalid).
Local Abbreviation ErrFieldRequired := (ErrFieldRequired msgRequired).
Local Abbreviation ErrFieldInvalid := (ErrFieldInvalid msgInvalid).

Lemma Append_non_nil (el : validationErrorList) (err : error) (v : any value)
    (fieldPaths : list string) (h : heap) :
  is_nil err = false ->
  Append el err v fieldPaths h =
    ({| name := name el;
        errs := errs el ++
          [wrapError h
             (validation_msg (strings_Join (name el :: fieldPaths) ".")
                             (valStr Sprint v) err) err] |}, S h).
Proof.
  intros Hnn. unfold_Append. rewrite Hnn. reflexivity.
Qed.

Lemma do_call_recorded (el : validationErrorList) (c : call value) (h : heap) :
  do_call el c h =
    ({| name := name el; errs := errs el ++ recorded (name el) h [c] |},
     h + length (filter records [c])).
Proof.
  assert (Hgen : do_call el c h =
                 Append el (call_cause c) (call_value c) (call_paths c) h)
    by (destruct c; reflexivity).
  rewrite Hgen. simpl. unfold_records.
  destruct (is_nil (call_cause c)) eqn:Hc; unfold non_nil; rewrite Hc; simpl.
  - unfold_Append. rewrite Hc. unfold ret.
    rewrite app_nil_r, Nat.add_0_r. destruct el; reflexivity.
  - rewrite Append_non_nil by exact Hc. rewrite Nat.add_1_r. reflexivity.
Qed.

Lemma do_calls_recorded (cs : list (call value)) :
  forall (el : validationErrorList) (h : heap),
    do_calls el cs h =
      ({| name := name el; errs := errs el ++ recorded (name el) h cs |},
       h + length (filter records cs)).
Proof.
  induction cs as [|c cs IH]; intros el h.
  - simpl. unfold ret. rewrite app_nil_r, Nat.add_0_r.
    destruct el; reflexivity.
  - step_do_calls. unfold bind. rewrite do_call_recorded.
    rewrite IH. cbn [name errs]. simpl.
    destruct (records c); simpl.
    + rewrite <- app_assoc, Nat.add_1_r. simpl. f_equal. lia.
    + rewrite app_nil_r, Nat.add_0_r. reflexivity.
Qed.

Lemma do_calls_app (cs1 cs2 : list (call value)) (el : validationErrorList) :
  forall h, do_calls el (cs1 ++ cs2) h =
            (el' <- do_calls el cs1 ;; do_calls el' cs2) h.
Proof.
  revert el. induction cs1 as [|c cs1 IH]; intros el h.
  - reflexivity.
  - simpl. unfold bind. destruct (do_call el c h) as [el1 h1].
    rewrite IH. reflexivity.
Qed.

Lemma recorded_length (n : string) (cs : list (call value)) :
  forall h, length (recorded n h cs) = length (filter records cs).
Proof.
  induction cs as [|c cs IH]; intros h; simpl; [reflexivity|].
  destruct (records c); simpl; rewrite IH; reflexivity.
Qed.

Lemma recorded_wrapError (n : string) (cs : list (call value)) :
  forall h, Forall (fun e => TypeOf e = Some ty_wrapError) (recorded n h cs).
Proof.
  induction cs as [|c cs IH]; intros h; simpl; [constructor|].
  destruct (records c); [constructor; [reflexivity|]|]; apply IH.
Qed.

Lemma filter_non_nil_wrapError (l : list error) :
  Forall (fun e => TypeOf e = Some ty_wrapError) l ->
  filter non_nil l = l.
Proof.
  induction 1 as [|e l He _ IH]; simpl; [reflexivity|].
  destruct e; try discriminate. simpl. rewrite IH. reflexivity.
Qed.

(** C5: [Append] with a nil cause returns the builder and the heap as they
    were, whatever the value and the path segments; so a sequence of
    recorder calls resolves to the same result with or without such a call
    in it. *)
Theorem Append_nil_noop (el : validationErrorList) (v : any value)
    (fieldPaths : list string) (h : heap) :
  Append el nil_error v fieldPaths h = (el, h) /\
  (el' <- Append el nil_error v fieldPaths ;; Error el') h = Error el h /\
  forall cs1 cs2 : list (call value),
    (el' <- do_calls el (cs1 ++ call_Append nil_error v fieldPaths :: cs2) ;;
     Error el') h =
    (el' <- do_calls el (cs1 ++ cs2) ;; Error el') h.
Proof.
  split; [reflexivity|]. split; [reflexivity|].
  intros cs1 cs2. unfold bind.
  rewrite !do_calls_app. unfold bind.
  destruct (do_calls el cs1 h) as [el1 h1]. reflexivity.
Qed.

(** C6: on a builder scoped with [name el], [Required] appends exactly one
    error to the list.  Its text is the field path (the name followed by
    the segments, joined by dots) directly followed by the colon and the
    text of the cause, with nothing about a value in between, and
    [errors.Is] finds [ErrFieldRequired] in it. *)
Theorem Required_appends (el : validationErrorList)
    (fieldPaths : list string) (h : heap) :
  let fieldPath := String.concat "." (name el :: fieldPaths) in
  let e := wrapError h
             ("validation error for " ++ fieldPath ++ ": " ++ msgRequired)
             ErrFieldRequired in
  Required el fieldPaths h =
    ({| name := name el; errs := errs el ++ [e] |}, S h) /\
  err_Error e =
    Some ("validation error for " ++ fieldPath ++ ": " ++ msgRequired) /\
  errors_Is e ErrFieldRequired = true.
Proof.
  intros fieldPath e. split; [|split; reflexivity].
  unfold_helpers. rewrite Append_non_nil by reflexivity.
  unfold e, fieldPath, validation_msg, strings_Join. simpl valStr.
  reflexivity.
Qed.

(** C7: [Invalid] appends exactly one error, in which [errors.Is] finds
    [ErrFieldInvalid].  Its text has, between the field path and the
    colon, the suffix [ (value: v)] with [v] the rendering of the value
    when the value is not nil, and nothing when it is nil. *)
Theorem Invalid_appends (el : validationErrorList) (v : any value)
    (fieldPaths : list string) (h : heap) :
  let fieldPath := String.concat "." (name el :: fieldPaths) in
  let suffix := match v with
                | Some x => " (value: " ++ Sprint x ++ ")"
                | None => ""
                end in
  let e := wrapError h
             ("validation error for " ++ fieldPath ++ suffix ++ ": "
                ++ msgInvalid)
             ErrFieldInvalid in
  Invalid el v fieldPaths h =
    ({| name := name el; errs := errs el ++ [e] |}, S h) /\
  err_Error e =
    Some ("validation error for " ++ fieldPath ++ suffix ++ ": "
            ++ msgInvalid) /\
  errors_Is e ErrFieldInvalid = true /\
  (suffix = "" <-> v = None).
Proof.
  intros fieldPath suffix e.
  split; [|split; [reflexivity|split; [reflexivity|]]].
  - unfold_helpers. rewrite Append_non_nil by reflexivity.
    unfold e, suffix, fieldPath, validation_msg, strings_Join, valStr.
    destruct v; reflexivity.
  - unfold suffix. destruct v; split; intros H; try discriminate; reflexivity.
Qed.

(** ** Builders reached through the recorders *)

Lemma new_do_calls (n : string) (cs : list (call value)) (h : heap) :
  do_calls (newValidationErrorList n) cs h =
    ({| name := n; errs := recorded n h cs |},
     h + length (filter records cs)).
Proof. rewrite do_calls_recorded. reflexivity. Qed.

Lemma filter_records_nil (cs : list (call value)) :
  filter records cs = [] <->
  forallb (fun c => is_nil (call_cause c)) cs = true.
Proof.
  induction cs as [|c cs IH]; simpl; [tauto|].
  unfold_records; unfold non_nil.
  destruct (is_nil (call_cause c)); simpl; [exact IH|].
  split; discriminate.
Qed.

(** C10: in a builder reached from [newValidationErrorList] through any
    sequence of recorder calls, every entry of the list is a non-nil
    [wrapError]; the filter of the resolve step keeps the whole list; and
    the resolve step returns nil exactly when the list is empty, which is
    exactly when every call was an [Append] with a nil cause. *)
Theorem recorded_never_nil (n : string) (cs : list (call value)) (h : heap) :
  let st := do_calls (newValidationErrorList n) cs h in
  let el := fst st in
  Forall (fun e => TypeOf e = Some ty_wrapError) (errs el) /\
  forallb non_nil (errs el) = true /\
  filter non_nil (errs el) = errs el /\
  (fst (Error el (snd st)) = nil_error <-> errs el = []) /\
  (errs el = [] <-> forallb (fun c => is_nil (call_cause c)) cs = true).
Proof.
  intros st el. unfold el, st. rewrite new_do_calls. cbn [fst snd errs].
  pose proof (recorded_wrapError n cs h) as Hw.
  pose proof (filter_non_nil_wrapError _ Hw) as Hf.
  split; [exact Hw|]. split; [|split; [exact Hf|split]].
  - apply forallb_forall. intros e He.
    rewrite Forall_forall in Hw. specialize (Hw e He).
    destruct e; try discriminate; reflexivity.
  - rewrite Error_cases. cbn [errs]. rewrite Hf.
    destruct (recorded n h cs) as [|e [|e' es]] eqn:Hr; cbn [fst].
    + tauto.
    + inversion Hw as [|? ? He _]; subst.
      split; intros H; [|discriminate]. subst e. discriminate.
    + split; discriminate.
  - rewrite <- filter_records_nil, <- !length_zero_iff_nil.
    rewrite recorded_length. tauto.
Qed.

(** C2: after any sequence of recorder calls on a new builder, of which
    [k] had a non-nil cause, the list holds [k] errors and the resolve
    step returns a [MultiError] exactly when [k] is at least two; that
    [MultiError] holds the whole list.  When [k] is one the result is the
    recorded [wrapError] itself, and when [k] is zero it is nil.  On any
    builder at all, the resolve step allocates (a [MultiError]) exactly
    when the list has two or more non-nil entries. *)
Theorem MultiError_only_for_two (n : string) (cs : list (call value))
    (h : heap) :
  let st := do_calls (newValidationErrorList n) cs h in
  let r := fst (Error (fst st) (snd st)) in
  let k := length (filter records cs) in
  length (errs (fst st)) = k /\
  is_MultiError r = (2 <=? k)%nat /\
  match r with
  | MultiError _ Errors => Errors = errs (fst st) /\ 2 <= length Errors
  | wrapError _ _ _ => errs (fst st) = [r] /\ k = 1
  | nil_error => errs (fst st) = [] /\ k = 0
  | _ => False
  end /\
  forall (el : validationErrorList) (h' : heap),
    snd (Error el h') =
      if (2 <=? length (filter non_nil (errs el)))%nat then S h' else h'.
Proof.
  intros st r k.
  assert (Halloc : forall (el : validationErrorList) (h' : heap),
             snd (Error el h') =
               if (2 <=? length (filter non_nil (errs el)))%nat
               then S h' else h').
  { intros el h'. rewrite Error_cases.
    destruct (filter non_nil (errs el)) as [|e [|e' es]]; reflexivity. }
  rewrite <- and_assoc, <- and_assoc. split; [|exact Halloc].
  rewrite and_assoc. clear Halloc.
  unfold r, k, st. rewrite new_do_calls. cbn [fst snd errs].
  pose proof (recorded_wrapError n cs h) as Hw.
  rewrite Error_cases. cbn [errs].
  rewrite (filter_non_nil_wrapError _ Hw).
  rewrite <- (recorded_length n cs h).
  destruct (recorded n h cs) as [|e [|e' es]]; cbn [fst length].
  - repeat split.
  - inversion Hw as [|? ? He _]; subst.
    destruct e; try discriminate. repeat split.
  - repeat split. simpl. lia.
Qed.

(** ** Rendering of a resolved aggregate *)

Lemma recorded_renderings (n : string) (cs : list (call value)) :
  forall h,
    renderings (recorded n h cs) = Some (map (call_msg n) (filter records cs)).
Proof.
  induction cs as [|c cs IH]; intros h; simpl; [reflexivity|].
  destruct (records c); [|apply IH].
  cbn [renderings err_Error map]. rewrite IH. reflexivity.
Qed.

(** C8: the text of a [MultiError] is the header followed by one bullet
    line per held error, made from that error's own text, in the order
    the errors are held (and it panics when one of those texts does).
    After recorder calls of which two or more record a failure, the
    resolve step returns a [MultiError] whose bullet lines are the
    diagnostic lines of the recording calls, in the order of the calls. *)
Theorem MultiError_Error_order :
  (forall (p : ptr) (Errors : list error),
     err_Error (MultiError p Errors) =
       match renderings Errors with
       | Some ss => Some (header ++ bullets ss)
       | None => None
       end) /\
  (forall (n : string) (cs : list (call value)) (h : heap),
     2 <= length (filter records cs) ->
     let st := do_calls (newValidationErrorList n) cs h in
     let r := fst (Error (fst st) (snd st)) in
     r = MultiError (snd st) (errs (fst st)) /\
     renderings (errs (fst st)) =
       Some (map (call_msg n) (filter records cs)) /\
     err_Error r =
       Some (header ++ bullets (map (call_msg n) (filter records cs)))).
Proof.
  split.
  - intros p Errors. apply MultiError_Error_renderings.
  - intros n cs h Hk st r. unfold r, st. rewrite new_do_calls.
    cbn [fst snd errs].
    pose proof (recorded_wrapError n cs h) as Hw.
    pose proof (recorded_length n cs h) as Hl.
    pose proof (recorded_renderings n cs h) as Hr.
    rewrite Error_cases. cbn [errs].
    rewrite (filter_non_nil_wrapError _ Hw).
    destruct (recorded n h cs) as [|e [|e' es]] eqn:Hrec;
      [simpl in Hl; lia | simpl in Hl; lia |].
    cbn [fst]. split; [reflexivity|]. split; [exact Hr|].
    change (MultiError_Error (e :: e' :: es) =
            Some (header ++ bullets (map (call_msg n) (filter records cs)))).
    rewrite MultiError_Error_renderings, Hr. reflexivity.
Qed.

(** ** The deploy-key scenario *)

Variable RepositoryRef : Type.
Variable foldRepository :
  validationErrorList -> RepositoryRef -> Go validationErrorList.

(** C9: Create validation of a deploy key with an empty name, empty key
    material and no repository reference returns a [MultiError] of exactly
    two errors, for the paths [DeployKey.Name] and [DeployKey.Key] in this
    order; [errors.Is] matches the result against any [MultiError] and
    finds [ErrFieldRequired] in the result and in each of the two, and
    does not find [ErrFieldInvalid]. *)
Theorem DeployKey_empty_name_and_key (h : heap) :
  let e1 := wrapError h
              ("validation error for DeployKey.Name: " ++ msgRequired)
              ErrFieldRequired in
  let e2 := wrapError (S h)
              ("validation error for DeployKey.Key: " ++ msgRequired)
              ErrFieldRequired in
  let r := MultiError (S (S h)) [e1; e2] in
  DeployKey_ValidateCreate Sprint msgRequired foldRepository
    (mkDeployKey "" [] None) h = (r, S (S (S h))) /\
  (forall q held, errors_Is r (MultiError q held) = true) /\
  errors_Is e1 ErrFieldRequired = true /\
  errors_Is e2 ErrFieldRequired = true /\
  errors_Is r ErrFieldRequired = true /\
  errors_Is r ErrFieldInvalid = false.
Proof.
  intros e1 e2 r. split; [reflexivity|].
  split; [|repeat split; reflexivity].
  intros q held. unfold r. rewrite errors_Is_MultiError. cbn [is_nil].
  apply orb_true_r.
Qed.

End Recorders.

(** ** The examples of the doc comment of [MultiError], and a few more *)

Example Is_finds_held_sentinel :
  errors_Is (MultiError 7 [ErrFieldRequired "required"; ErrFieldInvalid "invalid"])
            (ErrFieldInvalid "invalid") = true.
Proof. reflexivity. Qed.

Example Is_matches_any_MultiError :
  errors_Is (MultiError 7 [ErrFieldRequired "required"; ErrFieldInvalid "invalid"])
            (MultiError 8 []) = true.
Proof. reflexivity. Qed.

Example As_extracts_custom :
  errors_As (MultiError 7 [ErrFieldRequired "required";
                           customError "customError" 8 "custommy-value"])
            (target_ptr (ty_custom "customError"))
            (customError "customError" 9 "custom")
  = (true, customError "customError" 8 "custommy-value").
Proof. reflexivity. Qed.

Example As_goes_through_nested_aggregate :
  MultiError_As
    [ErrFieldRequired "required";
     wrapError 9 "validation error for DeployKey.Repository: ..."
       (MultiError 8 [ErrFieldInvalid "invalid";
                      customError "customError" 5 "first";
                      customError "customError" 6 "second"])]
    (target_ptr (ty_custom "customError")) nil_error
  = (true, customError "customError" 5 "first").
Proof. reflexivity. Qed.

Example As_finds_nothing :
  MultiError_As [ErrFieldRequired "required"; ErrFieldInvalid "invalid"]
    (target_ptr ty_MultiError) nil_error
  = (false, nil_error).
Proof. reflexivity. Qed.

Example Error_text_of_two :
  err_Error (MultiError 7 [ErrFieldRequired "required"; ErrFieldInvalid "invalid"])
  = Some ("multiple errors occurred: " ++ LF ++ "- required" ++ LF ++ "- invalid").
Proof. reflexivity. Qed.

Example Error_text_of_nil_entry_panics :
  err_Error (MultiError 7 [ErrFieldRequired "required"; nil_error]) = None.
Proof. reflexivity. Qed.

Example Invalid_then_resolve :
  (el <- Invalid (fun s : string => s) "field is invalid"
           (newValidationErrorList "Repository") (Some "unknown") ["Visibility"] ;;
   Error el) heap0
  = (wrapError 3
       "validation error for Repository.Visibility (value: unknown): field is invalid"
       (ErrFieldInvalid "field is invalid"), 4).
Proof. reflexivity. Qed.

(** Two cases of [TestDeployKey_Validate]: a key without a name, and a
    valid one (no repository reference in either). *)
Example DeployKey_missing_name :
  let r := fst (DeployKey_ValidateCreate (fun s : string => s)
                  "field is required" (fun el (_ : unit) => ret el)
                  (mkDeployKey "" [Byte.x73; Byte.x6f] None) heap0) in
  r = wrapError 3 "validation error for DeployKey.Name: field is required"
        (ErrFieldRequired "field is required") /\
  errors_Is r (ErrFieldRequired "field is required") = true.
Proof. split; reflexivity. Qed.

Example DeployKey_valid_create :
  DeployKey_ValidateCreate (fun s : string => s)
    "field is required" (fun el (_ : unit) => ret el)
    (mkDeployKey "foo-deploykey" [Byte.x73; Byte.x6f] None) heap0
  = (nil_error, heap0).
Proof. reflexivity. Qed.

(** Two recording calls and one [Append] with a nil cause: the aggregate
    lists the two recorded lines in the order of the calls. *)
Lemma MultiError_Error_order_witness :
  let cs := [call_Required ["Name"];
             call_Append nil_error (Some "ignored") ["Other"];
             call_Invalid (Some "x y") ["Key"]] in
  let st := do_calls (fun s : string => s) "field is required"
              "field is invalid" (newValidationErrorList "DeployKey") cs heap0 in
  2 <= length (filter (records "field is required" "field is invalid") cs) /\
  err_Error (fst (Error (fst st) (snd st))) =
    Some ("multiple errors occurred: "
          ++ LF ++ "- validation error for DeployKey.Name: field is required"
          ++ LF ++ "- validation error for DeployKey.Key (value: x y): field is invalid").
Proof.
  intros cs st. split; [simpl; lia|].
  apply (proj2 (MultiError_Error_order string (fun s : string => s)
                  "field is required" "field is invalid")
               "DeployKey" cs heap0).
  simpl; lia.
Defined.

(** ** Further properties of the aggregate error *)

Lemma errors_Is_nil_target (err : error) :
  errors_Is err nil_error = is_nil err.
Proof. destruct err; reflexivity. Qed.

Lemma errors_Is_of_nil (target : error) :
  is_nil target = false -> errors_Is nil_error target = false.
Proof. intros Ht. destruct target; try discriminate; reflexivity. Qed.

Lemma errors_Is_wrapped (p : ptr) (msg : string) (inner target : error) :
  is_nil target = false ->
  errors_Is inner target = true ->
  errors_Is (wrapError p msg inner) target = true.
Proof.
  intros Ht Hin. cbn [errors_Is]. rewrite Ht.
  destruct (error_eqb (wrapError p msg inner) target); [reflexivity|].
  destruct (is_nil inner) eqn:Hi; [|exact Hin].
  destruct inner; try discriminate.
  rewrite errors_Is_of_nil in Hin by exact Ht. discriminate.
Qed.

Lemma errors_Is_held (p : ptr) (Errors : list error) (e target : error) :
  is_nil target = false ->
  In e Errors ->
  errors_Is e target = true ->
  errors_Is (MultiError p Errors) target = true.
Proof.
  intros Ht Hin He. rewrite errors_Is_MultiError, Ht.
  unfold MultiError_Is, MultiError_Is_with. rewrite Is_loop_existsb.
  apply orb_true_iff. right.
  destruct (is_MultiError target); [reflexivity|].
  apply existsb_exists. exists e. split; assumption.
Qed.


Lemma existsb_ext_Forall {A : Type} (f g : A -> bool) (l : list A) :
  Forall (fun a => f a = g a) l -> existsb f l = existsb g l.
Proof.
  induction 1 as [|a l Ha _ IH]; simpl; [reflexivity|].
  rewrite Ha, IH. reflexivity.
Qed.


(** X2: [MultiError.Is] with the nil target answers true exactly when a nil
    entry is held, while [errors.Is] on the aggregate with the nil target is
    false, as it never calls the method then. *)
Theorem MultiError_Is_nil_target (p : ptr) (Errors : list error) :
  MultiError_Is Errors nil_error = existsb is_nil Errors /\
  errors_Is (MultiError p Errors) nil_error = false.
Proof.
  split; [|reflexivity].
  unfold MultiError_Is, MultiError_Is_with. cbn [is_MultiError].
  rewrite Is_loop_existsb. apply existsb_ext_Forall.
  apply Forall_forall. intros e _. apply errors_Is_nil_target.
Qed.

Lemma renderings_None (Errors : list error) :
  Forall (fun e => err_Error e = None <-> renders e = false) Errors ->
  (renderings Errors = None <-> forallb renders Errors = false).
Proof.
  induction 1 as [|e l He _ IH]; simpl.
  - split; discriminate.
  - destruct (err_Error e) as [s|] eqn:Hs.
    + assert (Hr : renders e = true).
      { destruct (renders e); [reflexivity|].
        destruct He as [_ He]. specialize (He eq_refl). discriminate. }
      rewrite Hr. cbn [andb]. rewrite <- IH.
      destruct (renderings l); split; intros H;
        try discriminate; reflexivity.
    + destruct He as [He _]. rewrite (He eq_refl). split; reflexivity.
Qed.

(** X3: the [Error] method panics exactly on the nil interface value and on
    an aggregate that holds, directly or inside directly nested aggregates,
    a nil entry; a [wrapError] around such an aggregate still renders. *)
Theorem Error_panics_iff (err : error) :
  err_Error err = None <-> renders err = false.
Proof.
  induction err as [|p s|p msg inner IH|p Errors IH|ty p msg]
    using error_nested_ind; cbn [renders].
  - split; reflexivity.
  - split; discriminate.
  - split; discriminate.
  - change (err_Error (MultiError p Errors)) with (MultiError_Error Errors).
    rewrite MultiError_Error_renderings, <- (renderings_None Errors IH).
    destruct (renderings Errors); split; intros H;
      try discriminate; reflexivity.
  - split; discriminate.
Qed.

Lemma errors_As_iface_non_nil (err slot : error) :
  errors_As err target_iface_error slot =
    if is_nil err then (false, slot) else (true, err).
Proof. destruct err; reflexivity. Qed.

(** X4: with a target of the interface type [error], [MultiError.As]
    writes the first non-nil held error into the slot, and returns false
    with the slot untouched when every entry is nil. *)
Theorem MultiError_As_error_interface (Errors : list error) (slot : error) :
  MultiError_As Errors target_iface_error slot =
    match find non_nil Errors with
    | Some e => (true, e)
    | None => (false, slot)
    end.
Proof.
  unfold MultiError_As.
  induction Errors as [|e rest IH]; [reflexivity|].
  cbn [As_loop find]. rewrite errors_As_iface_non_nil. unfold non_nil.
  destruct (is_nil e); cbn [negb]; [exact IH|reflexivity].
Qed.

Lemma filter_idem {A : Type} (f : A -> bool) (l : list A) :
  filter f (filter f l) = filter f l.
Proof.
  induction l as [|a l IH]; simpl; [reflexivity|].
  destruct (f a) eqn:Hf; simpl; rewrite ?Hf, IH; reflexivity.
Qed.

(** X5: the resolve step depends on the non-nil entries only: nil entries
    anywhere in the list, and the name of the builder, change neither the
    result nor the allocation. *)
Theorem Error_ignores_nil_entries (n m : string) (l : list error) (h : heap) :
  Error {| name := n; errs := l |} h =
  Error {| name := m; errs := filter non_nil l |} h.
Proof.
  rewrite !Error_cases. cbn [errs]. rewrite filter_idem. reflexivity.
Qed.

(** ** Further properties of validation passes *)

Lemma errors_Is_self (e : error) :
  is_nil e = false -> errors_Is e e = true.
Proof.
  intros He. destruct e; try discriminate;
    cbn [errors_Is is_nil]; rewrite error_eqb_refl; reflexivity.
Qed.

Ltac unfold_validate := unfold validate, bind.
Ltac unfold_call_cause := unfold call_cause.

Section Resolved.

Variable value : Type.
Variable Sprint : value -> string.
Variables msgRequired msgInvalid : string.

Local Abbreviation do_calls := (do_calls Sprint msgRequired msgInvalid).
Local Abbreviation records := (records msgRequired msgInvalid).
Local Abbreviation call_msg := (call_msg Sprint msgRequired msgInvalid).
Local Abbreviation call_cause := (call_cause msgRequired msgInvalid).
Local Abbreviation recorded := (recorded Sprint msgRequired msgInvalid).
Local Abbreviation validate := (validate Sprint msgRequired msgInvalid).

Lemma validate_cases (n : string) (cs : list (call value)) (h : heap) :
  validate n cs h =
    match recorded n h cs with
    | [] => (nil_error, h)
    | [e] => (e, S h)
    | (_ :: _ :: _) as es => (MultiError (h + length es) es, S (h + length es))
    end.
Proof.
  unfold_validate. rewrite new_do_calls, Error_cases. cbn [errs].
  rewrite (filter_non_nil_wrapError _ (recorded_wrapError _ Sprint _ _ n cs h)).
  rewrite <- (recorded_length _ Sprint msgRequired msgInvalid n cs h).
  destruct (recorded n h cs) as [|e [|e' es]]; cbn [length].
  - rewrite Nat.add_0_r. reflexivity.
  - rewrite Nat.add_1_r. reflexivity.
  - reflexivity.
Qed.

Lemma recorded_In (n : string) (cs : list (call value)) (c : call value) :
  In c cs -> records c = true ->
  forall h, exists p,
    In (wrapError p (call_msg n c) (call_cause c)) (recorded n h cs).
Proof.
  intros Hin Hrec. induction cs as [|c' cs IH]; [contradiction|].
  intros h. destruct Hin as [Heq|Hin].
  - subst c'. exists h. simpl. rewrite Hrec. left. reflexivity.
  - simpl. destruct (records c').
    + destruct (IH Hin (S h)) as [p Hp]. exists p. right. exact Hp.
    + apply IH, Hin.
Qed.

Lemma validate_Is_cause (n : string) (cs : list (call value)) (h : heap)
    (c : call value) (target : error) :
  In c cs -> is_nil target = false ->
  errors_Is (call_cause c) target = true ->
  errors_Is (fst (validate n cs h)) target = true.
Proof.
  intros Hin Ht Hc.
  assert (Hrec : records c = true).
  { unfold_records. unfold non_nil.
    destruct (is_nil (call_cause c)) eqn:Hn; [|reflexivity].
    destruct (call_cause c); try discriminate.
    rewrite errors_Is_of_nil in Hc by exact Ht. discriminate. }
  destruct (recorded_In n cs c Hin Hrec h) as [p Hp].
  assert (He : errors_Is (wrapError p (call_msg n c) (call_cause c)) target
               = true) by (apply errors_Is_wrapped; assumption).
  rewrite validate_cases.
  destruct (recorded n h cs) as [|e [|e' es]]; cbn [fst].
  - contradiction.
  - destruct Hp as [Hp|[]]. subst e. exact He.
  - eapply errors_Is_held; eassumption.
Qed.

Lemma records_non_nil_cause (c : call value) :
  records c = true -> is_nil (call_cause c) = false.
Proof.
  unfold_records. unfold non_nil. destruct (is_nil _); [discriminate|reflexivity].
Qed.

(** X6: after any sequence of recorder calls, [errors.Is] finds in the
    resolved result the cause of every call that recorded a failure, whether
    the result is a single wrapped error or an aggregate. *)
Theorem resolved_finds_recorded_causes (n : string) (cs : list (call value))
    (h : heap) (c : call value) :
  In c cs -> records c = true ->
  errors_Is (fst (validate n cs h)) (call_cause c) = true.
Proof.
  intros Hin Hrec. pose proof (records_non_nil_cause c Hrec) as Hn.
  apply (validate_Is_cause n cs h c); [exact Hin|exact Hn|].
  apply errors_Is_self, Hn.
Qed.

(** X7: when the result of one validation pass is passed to [Append] in
    another pass, [errors.Is] finds in the outer result the cause of every
    failure recorded in the inner pass. *)
Theorem nested_validation_finds_inner_causes (n1 n2 : string)
    (cs1 cs2 cs3 : list (call value)) (v : any value)
    (fieldPaths : list string) (h : heap) (c : call value) :
  In c cs2 -> records c = true ->
  let inner := validate n2 cs2 h in
  let outer := validate n1
                 (cs1 ++ call_Append (fst inner) v fieldPaths :: cs3)
                 (snd inner) in
  errors_Is (fst outer) (call_cause c) = true.
Proof.
  intros Hin Hrec inner outer.
  pose proof (records_non_nil_cause c Hrec) as Hn.
  unfold outer.
  apply (validate_Is_cause n1 _ (snd inner)
           (call_Append (fst inner) v fieldPaths)).
  - apply in_or_app. right. left. reflexivity.
  - exact Hn.
  - unfold_call_cause. unfold inner.
    apply (validate_Is_cause n2 cs2 h c); [exact Hin|exact Hn|].
    apply errors_Is_self, Hn.
Qed.

Lemma helpers_recorded (n : string) (cs : list (call value)) :
  forallb is_helper_call cs = true ->
  forall h,
    length (recorded n h cs) = length cs /\
    Forall (fun e => exists p msg a s, e = wrapError p msg (errorString a s))
           (recorded n h cs).
Proof.
  induction cs as [|c cs IH]; intros Hall h; [split; [reflexivity|constructor]|].
  simpl in Hall. apply andb_true_iff in Hall. destruct Hall as [Hc Hall].
  destruct (IH Hall (S h)) as [Hl Hf].
  destruct c as [ps|v ps|err v ps]; try discriminate; simpl.
  - split; [rewrite Hl; reflexivity|].
    constructor; [|exact Hf]. repeat eexists.
  - split; [rewrite Hl; reflexivity|].
    constructor; [|exact Hf]. repeat eexists.
Qed.

(** X8: when only [Required] and [Invalid] are called, [errors.Is] matches
    the resolved result against a [MultiError] exactly when two or more
    calls were made; this is the test the doc comment of [Error] gives to
    detect that many errors were returned. *)
Theorem helpers_only_Is_aggregate (n : string) (cs : list (call value))
    (h : heap) (q : ptr) (held : list error) :
  forallb is_helper_call cs = true ->
  errors_Is (fst (validate n cs h)) (MultiError q held)
  = (2 <=? length cs)%nat.
Proof.
  intros Hall. destruct (helpers_recorded n cs Hall h) as [Hl Hf].
  rewrite validate_cases, <- Hl.
  destruct (recorded n h cs) as [|e [|e' es]]; cbn [fst length].
  - reflexivity.
  - inversion Hf as [|? ? He _]; subst.
    destruct He as (p & msg & a & s & ->). reflexivity.
  - rewrite errors_Is_MultiError. cbn [is_nil].
    unfold MultiError_Is, MultiError_Is_with. cbn [is_MultiError].
    apply orb_true_r.
Qed.

(** X9: when only [Required] and [Invalid] are called, [errors.As] with a
    target of type [*MultiError] succeeds on the resolved result exactly
    when two or more calls were made, and then writes the result itself
    into the slot; otherwise the slot is left as it was. *)
Theorem helpers_only_As_aggregate (n : string) (cs : list (call value))
    (h : heap) (slot : error) :
  forallb is_helper_call cs = true ->
  errors_As (fst (validate n cs h)) (target_ptr ty_MultiError) slot
  = if (2 <=? length cs)%nat then (true, fst (validate n cs h))
    else (false, slot).
Proof.
  intros Hall. destruct (helpers_recorded n cs Hall h) as [Hl Hf].
  rewrite validate_cases, <- Hl.
  destruct (recorded n h cs) as [|e [|e' es]]; cbn [fst length].
  - reflexivity.
  - inversion Hf as [|? ? He _]; subst.
    destruct He as (p & msg & a & s & ->). reflexivity.
  - reflexivity.
Qed.

(** X10: a single [Append] whose cause is an aggregate resolves to a plain
    wrapped error, not to a [MultiError]; [errors.Is] still matches it
    against any [MultiError], and [errors.As] extracts the aggregate that
    was passed as the cause. *)
Theorem single_aggregate_cause (n : string) (p : ptr) (Errors : list error)
    (v : any value) (fieldPaths : list string) (h : heap)
    (q : ptr) (held : list error) (slot : error) :
  let r := fst (validate n [call_Append (MultiError p Errors) v fieldPaths] h) in
  TypeOf r = Some ty_wrapError /\
  errors_Unwrap r = MultiError p Errors /\
  errors_Is r (MultiError q held) = true /\
  errors_As r (target_ptr ty_MultiError) slot = (true, MultiError p Errors).
Proof.
  intros r. unfold r. rewrite validate_cases. simpl.
  split; [reflexivity|]. split; [reflexivity|]. split; [|reflexivity].
  apply orb_true_r.
Qed.

(** X11: recorder calls only append: on any builder, after any sequence of
    calls the name is the same, the entries that were in the list are still
    its first entries in the same order, and the list has grown by one
    wrapped error (and the heap by one address) per call with a non-nil
    cause. *)
Theorem recorders_only_append (el : validationErrorList)
    (cs : list (call value)) (h : heap) :
  let el' := fst (do_calls el cs h) in
  let k := length (filter records cs) in
  name el' = name el /\
  firstn (length (errs el)) (errs el') = errs el /\
  length (errs el') = length (errs el) + k /\
  Forall (fun e => TypeOf e = Some ty_wrapError)
         (skipn (length (errs el)) (errs el')) /\
  snd (do_calls el cs h) = h + k.
Proof.
  intros el' k. unfold el', k. rewrite do_calls_recorded. cbn [fst snd name errs].
  split; [reflexivity|].
  split; [rewrite firstn_app, Nat.sub_diag, firstn_all; apply app_nil_r|].
  split; [rewrite length_app, recorded_length; reflexivity|].
  split; [|reflexivity].
  rewrite skipn_app, Nat.sub_diag, skipn_all. cbn [skipn app].
  apply recorded_wrapError.
Qed.

End Resolved.

(** ** Properties of gitlab.NewClient *)

Ltac unfold_NewClient := unfold NewClient, finish.
Ltac unfold_backend := unfold backend, backend_options, effective_domain.

Section NewClientFacts.

Variables ClientOption ClientOptions TransportChain : Type.
Variables HTTPClient GitlabClient Client : Type.
Variable MakeClientOptions : list ClientOption -> result ClientOptions.
Variable Domain : ClientOptions -> option string.
Variable EnableDestructiveAPICalls : ClientOptions -> option bool.
Variable GetTransportChain : ClientOptions -> TransportChain.
Variable BuildClientFromTransportChain : TransportChain -> result HTTPClient.
Variable gogitlab_NewOAuthClient :
  string -> list (ClientOptionFunc HTTPClient) -> result GitlabClient.
Variable gogitlab_NewClient :
  string -> list (ClientOptionFunc HTTPClient) -> result GitlabClient.
Variable gogitlab_NewBasicAuthClient :
  string -> string -> list (ClientOptionFunc HTTPClient) -> result GitlabClient.
Variable newClient : option GitlabClient -> string -> string -> bool -> Client.

Local Abbreviation NewClient :=
  (NewClient MakeClientOptions Domain EnableDestructiveAPICalls
     GetTransportChain BuildClientFromTransportChain gogitlab_NewOAuthClient
     gogitlab_NewClient gogitlab_NewBasicAuthClient newClient).
Local Abbreviation backend :=
  (backend gogitlab_NewOAuthClient gogitlab_NewClient
     gogitlab_NewBasicAuthClient).

(** The value of [destructiveActions]. *)
Local Abbreviation destructive opts :=
  (match EnableDestructiveAPICalls opts with
   | Some b => b
   | None => false
   end).

Lemma NewClient_after_setup (username password token : string)
    (tokenType : TokenType) (optFns : list ClientOption)
    (opts : ClientOptions) (httpClient : HTTPClient) :
  MakeClientOptions optFns = Ok opts ->
  BuildClientFromTransportChain (GetTransportChain opts) = Ok httpClient ->
  NewClient username password token tokenType optFns
  = if known_token_type tokenType
    then match backend username password token tokenType
                 (backend_options httpClient (Domain opts)) with
         | Ok gl => Ok (newClient (Some gl) (effective_domain (Domain opts)) ""
                          (destructive opts))
         | Err e => Err e
         end
    else Ok (newClient None "" "" (destructive opts)).
Proof.
  intros Ho Hc. unfold known_token_type.
  unfold_NewClient. unfold_backend. rewrite Ho, Hc.
  unfold is_default_domain, deref_domain.
  destruct (Domain opts) as [d|].
  - destruct (String.eqb d DefaultDomain) eqn:Hd.
    + apply String.eqb_eq in Hd. subst d.
      destruct (String.eqb tokenType TokenTypeOAuth2); [reflexivity|].
      destruct (String.eqb tokenType TokenTypePat); [reflexivity|].
      destruct (String.eqb tokenType TokenTypeBasic); reflexivity.
    + destruct (String.eqb tokenType TokenTypeOAuth2); [reflexivity|].
      destruct (String.eqb tokenType TokenTypePat); [reflexivity|].
      destruct (String.eqb tokenType TokenTypeBasic); reflexivity.
  - destruct (String.eqb tokenType TokenTypeOAuth2); [reflexivity|].
    destruct (String.eqb tokenType TokenTypePat); [reflexivity|].
    destruct (String.eqb tokenType TokenTypeBasic); reflexivity.
Qed.

(** X12: for a token type other than the three declared ones, no go-gitlab
    constructor runs and no error is returned: when the options and the
    HTTP client are built, the result is a client around a nil go-gitlab
    client with an empty domain. *)
Theorem NewClient_unknown_token_type (username password token : string)
    (tokenType : TokenType) (optFns : list ClientOption)
    (opts : ClientOptions) (httpClient : HTTPClient) :
  known_token_type tokenType = false ->
  MakeClientOptions optFns = Ok opts ->
  BuildClientFromTransportChain (GetTransportChain opts) = Ok httpClient ->
  NewClient username password token tokenType optFns
  = Ok (newClient None "" "" (destructive opts)).
Proof.
  intros Hk Ho Hc.
  rewrite (NewClient_after_setup _ _ _ _ _ opts httpClient Ho Hc), Hk.
  reflexivity.
Qed.

(** X13: for one of the three token types, once the options and the HTTP
    client are built, the constructor that the token type selects is called
    with the HTTP client, and with the base URL [https://] followed by the
    domain exactly when a domain other than gitlab.com is set; its error is
    returned as it is, and otherwise the client gets the configured domain
    (gitlab.com when none is set), an empty SSH domain, and destructive
    calls off unless the options turn them on. *)
Theorem NewClient_known_token_type (username password token : string)
    (tokenType : TokenType) (optFns : list ClientOption)
    (opts : ClientOptions) (httpClient : HTTPClient) :
  known_token_type tokenType = true ->
  MakeClientOptions optFns = Ok opts ->
  BuildClientFromTransportChain (GetTransportChain opts) = Ok httpClient ->
  NewClient username password token tokenType optFns
  = match backend username password token tokenType
            (backend_options httpClient (Domain opts)) with
    | Ok gl => Ok (newClient (Some gl) (effective_domain (Domain opts)) ""
                     (destructive opts))
    | Err e => Err e
    end.
Proof.
  intros Hk Ho Hc.
  rewrite (NewClient_after_setup _ _ _ _ _ opts httpClient Ho Hc), Hk.
  reflexivity.
Qed.

(** X14: the credentials a token type does not use have no influence: with
    [basicauth] the token is ignored, and with every other token type the
    user name and the password are. *)
Theorem NewClient_unused_credentials (username password token : string)
    (username' password' token' : string)
    (tokenType : TokenType) (optFns : list ClientOption) :
  if String.eqb tokenType TokenTypeBasic
  then NewClient username password token tokenType optFns
       = NewClient username password token' tokenType optFns
  else NewClient username password token tokenType optFns
       = NewClient username' password' token tokenType optFns.
Proof.
  destruct (String.eqb tokenType TokenTypeBasic) eqn:Hb.
  - apply String.eqb_eq in Hb. subst tokenType. reflexivity.
  - unfold_NewClient. rewrite Hb. reflexivity.
Qed.

(** X15: [NewClient] has no error of its own: it fails exactly when
    [MakeClientOptions] fails, or [BuildClientFromTransportChain] fails, or
    the token type is one of the three and its constructor fails, and it
    returns the error of that step. *)
Theorem NewClient_fails_iff (username password token : string)
    (tokenType : TokenType) (optFns : list ClientOption) (e : error) :
  NewClient username password token tokenType optFns = Err e <->
  MakeClientOptions optFns = Err e \/
  exists opts, MakeClientOptions optFns = Ok opts /\
    (BuildClientFromTransportChain (GetTransportChain opts) = Err e \/
     exists httpClient,
       BuildClientFromTransportChain (GetTransportChain opts) = Ok httpClient /\
       known_token_type tokenType = true /\
       backend username password token tokenType
         (backend_options httpClient (Domain opts)) = Err e).
Proof.
  destruct (MakeClientOptions optFns) as [opts|e0] eqn:Ho.
  2:{ unfold_NewClient. rewrite Ho. split.
      - intros H. left. congruence.
      - intros [H|(opts & H & _)]; congruence. }
  destruct (BuildClientFromTransportChain (GetTransportChain opts))
    as [httpClient|e0] eqn:Hc.
  2:{ unfold_NewClient. rewrite Ho, Hc. split.
      - intros H. right. exists opts. split; [reflexivity|]. left.
        rewrite Hc. congruence.
      - intros [H|(opts' & H & Hr)]; [discriminate|].
        injection H as <-. rewrite Hc in Hr.
        destruct Hr as [Hr|(hc & Hr & _)]; congruence. }
  rewrite (NewClient_after_setup username password token tokenType
             optFns opts httpClient Ho Hc).
  destruct (known_token_type tokenType) eqn:Hk.
  - split.
    + intros H. right. exists opts. split; [reflexivity|]. right.
      exists httpClient. rewrite Hc. split; [reflexivity|].
      split; [reflexivity|].
      destruct (backend username password token tokenType
                  (backend_options httpClient (Domain opts)));
        congruence.
    + intros [H|(opts' & H & Hr)]; [discriminate|].
      injection H as <-. rewrite Hc in Hr.
      destruct Hr as [Hr|(hc & Hr & _ & Hb)]; [discriminate|].
      injection Hr as <-. rewrite Hb. reflexivity.
  - split; [discriminate|].
    intros [H|(opts' & H & Hr)]; [discriminate|].
    injection H as <-. rewrite Hc in Hr.
    destruct Hr as [Hr|(hc & _ & Hk' & _)]; discriminate.
Qed.

End NewClientFacts.

(** ** Instances *)

(** A pass with one [Required] and one [Invalid] call. *)
Lemma resolved_finds_recorded_causes_witness :
  let cs := [call_Required ["Name"]; call_Invalid (Some "x") ["Key"]] in
  let c := call_Invalid (Some "x") ["Key"] in
  In c cs /\
  records "field is required" "field is invalid" c = true /\
  errors_Is
    (fst (validate (fun s : string => s) "field is required"
            "field is invalid" "DeployKey" cs heap0))
    (ErrFieldInvalid "field is invalid") = true.
Proof.
  intros cs c.
  split; [right; left; reflexivity|]. split; [reflexivity|].
  apply (resolved_finds_recorded_causes string (fun s : string => s)
           "field is required" "field is invalid" "DeployKey" cs heap0 c).
  - right; left; reflexivity.
  - reflexivity.
Defined.

(** A deploy-key pass that folds in the result of a pass over its
    repository reference. *)
Lemma nested_validation_finds_inner_causes_witness :
  let cs2 := [call_Required ["Organization"]; call_Invalid (Some "") ["Name"]] in
  let c := call_Invalid (Some "") ["Name"] in
  let inner := validate (fun s : string => s) "field is required"
                 "field is invalid" "OrgRepositoryRef" cs2 heap0 in
  let outer := validate (fun s : string => s) "field is required"
                 "field is invalid" "DeployKey"
                 ([call_Required ["Name"]]
                    ++ call_Append (fst inner) None ["Repository"] :: [])
                 (snd inner) in
  In c cs2 /\
  records "field is required" "field is invalid" c = true /\
  errors_Is (fst outer) (ErrFieldInvalid "field is invalid") = true.
Proof.
  intros cs2 c inner outer.
  split; [right; left; reflexivity|]. split; [reflexivity|].
  apply (nested_validation_finds_inner_causes string (fun s : string => s)
           "field is required" "field is invalid" "DeployKey"
           "OrgRepositoryRef" [call_Required ["Name"]] cs2 [] None
           ["Repository"] heap0 c).
  - right; left; reflexivity.
  - reflexivity.
Defined.

Lemma helpers_only_Is_aggregate_witness :
  let cs := [call_Required ["Name"]; call_Invalid (Some "x") ["Key"]] in
  forallb is_helper_call cs = true /\
  errors_Is
    (fst (validate (fun s : string => s) "field is required"
            "field is invalid" "DeployKey" cs heap0))
    (MultiError 0 []) = (2 <=? length cs)%nat.
Proof.
  intros cs. split; [reflexivity|].
  apply (helpers_only_Is_aggregate string (fun s : string => s)
           "field is required" "field is invalid" "DeployKey" cs heap0 0 []).
  reflexivity.
Defined.

Lemma helpers_only_As_aggregate_witness :
  let cs := [call_Required ["Name"]] in
  forallb is_helper_call cs = true /\
  errors_As
    (fst (validate (fun s : string => s) "field is required"
            "field is invalid" "DeployKey" cs heap0))
    (target_ptr ty_MultiError) nil_error = (false, nil_error).
Proof.
  intros cs. split; [reflexivity|].
  apply (helpers_only_As_aggregate string (fun s : string => s)
           "field is required" "field is invalid" "DeployKey" cs heap0
           nil_error).
  reflexivity.
Defined.

(** An instance of the callees of [NewClient]: the options are the domain,
    the go-gitlab client records the credential and the options it was
    built with, and the client records what [newClient] is given. *)
Lemma NewClient_unknown_token_type_witness :
  let opts : option string := Some "gitlab.example.com" in
  known_token_type "ssh" = false /\
  @NewClient unit (option string) unit unit
    (string * list (ClientOptionFunc unit))
    (option (string * list (ClientOptionFunc unit)) * string * string * bool)
    (fun _ => Ok opts) (fun o => o) (fun _ => Some true) (fun _ => tt)
    (fun _ => Ok tt)
    (fun token os => Ok (token, os)) (fun token os => Ok (token, os))
    (fun username _ os => Ok (username, os))
    (fun gl domain sshDomain destructive =>
       (gl, domain, sshDomain, destructive))
    "user" "secret" "token" "ssh" []
  = Ok (None, "", "", true).
Proof.
  intros opts. split; [reflexivity|].
  apply (NewClient_unknown_token_type unit (option string) unit unit
           (string * list (ClientOptionFunc unit))
           (option (string * list (ClientOptionFunc unit))
            * string * string * bool)
           (fun _ => Ok opts) (fun o => o) (fun _ => Some true) (fun _ => tt)
           (fun _ => Ok tt)
           (fun token os => Ok (token, os)) (fun token os => Ok (token, os))
           (fun username _ os => Ok (username, os))
           (fun gl domain sshDomain destructive =>
              (gl, domain, sshDomain, destructive))
           "user" "secret" "token" "ssh" [] opts tt);
    reflexivity.
Defined.

Lemma NewClient_known_token_type_witness :
  let opts : option string := Some "gitlab.example.com" in
  known_token_type TokenTypePat = true /\
  @NewClient unit (option string) unit unit
    (string * list (ClientOptionFunc unit))
    (option (string * list (ClientOptionFunc unit)) * string * string * bool)
    (fun _ => Ok opts) (fun o => o) (fun _ => None) (fun _ => tt)
    (fun _ => Ok tt)
    (fun token os => Ok (token, os)) (fun token os => Ok (token, os))
    (fun username _ os => Ok (username, os))
    (fun gl domain sshDomain destructive =>
       (gl, domain, sshDomain, destructive))
    "user" "secret" "token" TokenTypePat []
  = Ok (Some ("token",
              [WithHTTPClient tt; WithBaseURL "https://gitlab.example.com"]),
        "gitlab.example.com", "", false).
Proof.
  intros opts. split; [reflexivity|].
  apply (NewClient_known_token_type unit (option string) unit unit
           (string * list (ClientOptionFunc unit))
           (option (string * list (ClientOptionFunc unit))
            * string * string * bool)
           (fun _ => Ok opts) (fun o => o) (fun _ => None) (fun _ => tt)
           (fun _ => Ok tt)
           (fun token os => Ok (token, os)) (fun token os => Ok (token, os))
           (fun username _ os => Ok (username, os))
           (fun gl domain sshDomain destructive =>
              (gl, domain, sshDomain, destructive))
           "user" "secret" "token" TokenTypePat [] opts tt);
    reflexivity.
Defined.
